(** * express-zod-validations: the [validate] middleware

    A shallow embedding of [src/index.ts].  The middleware mutates the
    request object it is given and finishes by calling [next]; here a
    middleware is a function from the request before the call to the
    request after it, together with the argument [next] was called with
    and the sequence of keys whose schema was run.

    Modelling conventions.
    - A JavaScript object used as a dictionary ([req.validationErrors],
      [req.validationValues], the request's own part properties) is a
      [gmap string _]; an absent key reads as [undefined].
    - The schema map [props] is the sequence [Object.entries(props)]
      yields: an association list in property order whose keys are
      pairwise distinct ([wf_props]).
    - The three bookkeeping properties of the request are record fields
      of their own; a schema map naming one of them as a part is outside
      the model ([wf_props] excludes it).
    - A Zod schema is represented by what awaiting its [safeParseAsync]
      gives: a success result, a failure result, or a rejection.
    - A property of the request may be an accessor with a getter only
      (Express 5 defines [req.query] so): reading it gives a value,
      assigning to it throws a [TypeError], the module being strict
      code.  The request records which of its properties are such. *)

From stdpp Require Import gmap strings list fin_maps.

Set Default Proof Using "Type".

(** ** JavaScript values and Zod results *)

#[warnings="-register-all"]
Inductive JsValue : Type :=
| JsUndefined
| JsNull
| JsBool (b : bool)
| JsNumber (n : Z)
| JsString (s : string)
| JsArray (items : list JsValue)
| JsObject (fields : list (string * JsValue)).

Record ZodIssue : Type := mkIssue {
  issue_code : string;
  issue_path : list string;
  issue_message : string;
}.

Record ZodError : Type := mkZodError { issues : list ZodIssue }.

(** [Parameters<ZodType["parse"]>[1]]: an options object, or [undefined]. *)
Definition ValidationOptions : Type := option JsValue.

(** What [await schema.safeParseAsync(input, options)] evaluates to. *)
Inductive SafeParseResult : Type :=
| ParseSuccess (data : JsValue)
| ParseFailure (error : ZodError)
| ParseRejected (reason : JsValue).

Record ZodType : Type := mkZodType {
  safeParseAsync : JsValue → ValidationOptions → SafeParseResult;
}.

(** ** The interfaces of [index.ts] *)

Record ValidationConfigs : Type := mkConfigs {
  throwErrors : option bool;
  overwriteRequest : option bool;
}.

(** [Partial<Record<ValidationKey, ZodError>>] and
    [Partial<Record<ValidationKey, unknown>>]. *)
Abbreviation ValidationErrors := (gmap string ZodError).
Abbreviation ValidationValues := (gmap string JsValue).

(** The request: its own properties ([headers], [params], [query],
    [body], whatever else the application hung on it) with the value
    reading each one gives, the names of those that have a getter only,
    and the three optional fields of the interface. *)
Record ValidationRequest : Type := mkRequest {
  req_parts : gmap string JsValue;
  req_getters : gset string;
  validationConfigs : option ValidationConfigs;
  validationErrors : option ValidationErrors;
  validationValues : option ValidationValues;
}.

(** [Partial<Record<ValidationKey, ZodType>>], as [Object.entries] lists
    it; [None] is a property whose value is [undefined]. *)
Definition ValidationProps : Type := list (string * option ZodType).

Definition ValidationKeys : list string :=
  ["headers"; "params"; "query"; "body"].

Definition bookkeeping_fields : list string :=
  ["validationConfigs"; "validationErrors"; "validationValues"].

Definition wf_props (props : ValidationProps) : Prop :=
  NoDup props.*1 ∧ Forall (λ key, key ∉ bookkeeping_fields) props.*1.

#[global] Instance wf_props_dec props : Decision (wf_props props).
Proof. unfold wf_props. apply _. Defined.

(** The argument of [next(...)], by the call that passes it: the
    [result.error] of line 60, or whatever the [catch] of line 65 caught
    (which may itself be any value, an error object of Zod included). *)
Inductive NextArg : Type :=
| ArgZodError (error : ZodError)
| ArgThrown (reason : JsValue).

(** The result of running a middleware: the request as it left it, the
    call to [next] ([None] for [next()]), and the keys for which
    [safeParseAsync] was called, in call order. *)
Record Outcome : Type := mkOutcome {
  out_req : ValidationRequest;
  out_next : option NextArg;
  out_parsed : list string;
}.

(** ** Reading and writing the request *)

(** [req[key]] *)
Definition req_get (key : string) (req : ValidationRequest) : JsValue :=
  default JsUndefined (req_parts req !! key).

(** The [TypeError] of an assignment to a property that has a getter
    only. *)
Definition TypeError_getter_only (key : string) : JsValue :=
  JsObject
    [("name", JsString "TypeError");
     ("message",
      JsString ("Cannot set property " +:+ key +:+ " which has only a getter"))].

(** [req[key] = data]: the request with the property written, or the
    value thrown. *)
Definition req_set (key : string) (data : JsValue) (req : ValidationRequest)
  : ValidationRequest + JsValue :=
  if decide (key ∈ req_getters req) then inr (TypeError_getter_only key)
  else
    inl {| req_parts := <[key := data]> (req_parts req);
           req_getters := req_getters req;
           validationConfigs := validationConfigs req;
           validationErrors := validationErrors req;
           validationValues := validationValues req |}.

(** The two maps as the handlers read them ([req.validationErrors?.body]):
    a map that was never created has no entries. *)
Definition errors_of (req : ValidationRequest) : ValidationErrors :=
  default ∅ (validationErrors req).

Definition values_of (req : ValidationRequest) : ValidationValues :=
  default ∅ (validationValues req).

Definition with_errors (errs : ValidationErrors) (req : ValidationRequest)
  : ValidationRequest :=
  {| req_parts := req_parts req;
     req_getters := req_getters req;
     validationConfigs := validationConfigs req;
     validationErrors := Some errs;
     validationValues := validationValues req |}.

Definition with_values (vals : ValidationValues) (req : ValidationRequest)
  : ValidationRequest :=
  {| req_parts := req_parts req;
     req_getters := req_getters req;
     validationConfigs := validationConfigs req;
     validationErrors := validationErrors req;
     validationValues := Some vals |}.

Definition with_configs (configs : option ValidationConfigs)
    (req : ValidationRequest) : ValidationRequest :=
  {| req_parts := req_parts req;
     req_getters := req_getters req;
     validationConfigs := configs;
     validationErrors := validationErrors req;
     validationValues := validationValues req |}.

(** Lines 38-40: [req.validationConfigs ??= {}] and the two maps alike. *)
Definition ensure_state (req : ValidationRequest) : ValidationRequest :=
  {| req_parts := req_parts req;
     req_getters := req_getters req;
     validationConfigs :=
       Some (default (mkConfigs None None) (validationConfigs req));
     validationErrors := Some (errors_of req);
     validationValues := Some (values_of req) |}.

(** Lines 42-43: [const { throwErrors = false, overwriteRequest = false }
    = req.validationConfigs]. *)
Definition read_configs (req : ValidationRequest) : bool * bool :=
  match validationConfigs req with
  | Some configs =>
      (default false (throwErrors configs),
       default false (overwriteRequest configs))
  | None => (false, false)
  end.

(** ** The middlewares *)

(** Lines 27-32. *)
Definition expressZodValidations (configs : ValidationConfigs)
    (req : ValidationRequest) : Outcome :=
  {| out_req := with_configs (Some configs) req;
     out_next := None;
     out_parsed := [] |}.

(** How one turn of the loop ends: the loop goes on, or the function
    returns through [next(arg)]. *)
Inductive Flow : Type :=
| Continue (req : ValidationRequest)
| Return (req : ValidationRequest) (arg : NextArg).

Definition parsed_first (key : string) (o : Outcome) : Outcome :=
  {| out_req := out_req o;
     out_next := out_next o;
     out_parsed := key :: out_parsed o |}.

Section loop.
(** Constant during one invocation: the two switches read on lines
    42-43 and the caller's parse options. *)
Variables (throwErrors_ overwriteRequest_ : bool).
Variable options : ValidationOptions.

(** Lines 51-61 for a key whose schema is present.  When the write of
    line 56 throws, lines 54-55 have run and the [catch] calls [next]. *)
Definition validate_entry (key : string) (schema : ZodType)
    (req : ValidationRequest) : Flow :=
  match safeParseAsync schema (req_get key req) options with
  | ParseSuccess data =>
      let req := with_errors (delete key (errors_of req)) req in
      let req := with_values (<[key := data]> (values_of req)) req in
      if overwriteRequest_ then
        match req_set key data req with
        | inl req' => Continue req'
        | inr thrown => Return req (ArgThrown thrown)
        end
      else Continue req
  | ParseFailure error =>
      let req := with_errors (<[key := error]> (errors_of req)) req in
      let req := with_values (delete key (values_of req)) req in
      if throwErrors_ then Return req (ArgZodError error) else Continue req
  | ParseRejected reason => Return req (ArgThrown reason)
  end.

(** Lines 45-64: the loop over the entries and the final [next()]. *)
Fixpoint validate_entries (entries : ValidationProps)
    (req : ValidationRequest) : Outcome :=
  match entries with
  | [] => {| out_req := req; out_next := None; out_parsed := [] |}
  | (key, None) :: rest => validate_entries rest req
  | (key, Some schema) :: rest =>
      match validate_entry key schema req with
      | Continue req' => parsed_first key (validate_entries rest req')
      | Return req' arg =>
          {| out_req := req'; out_next := Some arg; out_parsed := [key] |}
      end
  end.
End loop.

(** Lines 34-68. *)
Definition validate (props : ValidationProps) (options : ValidationOptions)
    (req : ValidationRequest) : Outcome :=
  let req := ensure_state req in
  let '(throwErrors_, overwriteRequest_) := read_configs req in
  validate_entries throwErrors_ overwriteRequest_ options props req.

(** Lines 70-79. *)
Definition validateHeaders (headers : ZodType) (options : ValidationOptions) :=
  validate [("headers", Some headers)] options.
Definition validateParams (params : ZodType) (options : ValidationOptions) :=
  validate [("params", Some params)] options.
Definition validateQuery (query : ZodType) (options : ValidationOptions) :=
  validate [("query", Some query)] options.
Definition validateBody (body : ZodType) (options : ValidationOptions) :=
  validate [("body", Some body)] options.

(** ** Vocabulary of the properties *)

(** The keys of the schema map that carry a schema, in entry order. *)
Definition configured_keys (props : ValidationProps) : list string :=
  (filter (λ entry, is_Some entry.2) props).*1.

(** [key] has an entry in the value map and in the error map. *)
Definition in_both_maps (key : string) (req : ValidationRequest) : Prop :=
  is_Some (values_of req !! key) ∧ is_Some (errors_of req !! key).

(** Everything the request holds for [key] is the same in both requests. *)
Definition same_at (key : string) (req req' : ValidationRequest) : Prop :=
  req_parts req' !! key = req_parts req !! key ∧
  values_of req' !! key = values_of req !! key ∧
  errors_of req' !! key = errors_of req !! key.

(** The configured parts in the order the specification fixes, whatever
    their order in the schema map. *)
Definition fixed_order_keys (props : ValidationProps) : list string :=
  filter (λ key, key ∈ configured_keys props) ValidationKeys.

Definition flow_req (f : Flow) : ValidationRequest :=
  match f with
  | Continue req => req
  | Return req _ => req
  end.

(** Assigning to [req[key]] does not throw. *)
Definition writable (key : string) (req : ValidationRequest) : bool :=
  bool_decide (key ∉ req_getters req).

(** The final state of a key that was reached is what its own turn made
    of the request data the invocation started with. *)
Definition settled (oR : bool) (opts : ValidationOptions) (key : string)
    (schema : ZodType) (req after : ValidationRequest) : Prop :=
  match safeParseAsync schema (req_get key req) opts with
  | ParseSuccess data =>
      values_of after !! key = Some data ∧
      errors_of after !! key = None ∧
      req_parts after !! key =
        (if oR && writable key req then Some data else req_parts req !! key)
  | ParseFailure error =>
      errors_of after !! key = Some error ∧
      values_of after !! key = None ∧
      req_parts after !! key = req_parts req !! key
  | ParseRejected _ => same_at key req after
  end.

(** The request a handler sees when no middleware of this library has run. *)
Definition fresh_request (parts : gmap string JsValue) : ValidationRequest :=
  {| req_parts := parts;
     req_getters := ∅;
     validationConfigs := None;
     validationErrors := None;
     validationValues := None |}.

(** [req[key] = ...] done by anyone else: a body parser, a handler. *)
Definition with_parts (parts : gmap string JsValue) (req : ValidationRequest)
  : ValidationRequest :=
  {| req_parts := parts;
     req_getters := req_getters req;
     validationConfigs := validationConfigs req;
     validationErrors := validationErrors req;
     validationValues := validationValues req |}.

(** The framework defines some properties of the request with a getter
    only. *)
Definition with_getters (getters : gset string) (req : ValidationRequest)
  : ValidationRequest :=
  {| req_parts := req_parts req;
     req_getters := getters;
     validationConfigs := validationConfigs req;
     validationErrors := validationErrors req;
     validationValues := validationValues req |}.

(** The requests that can reach a middleware of this library when only
    the library writes the three bookkeeping fields. *)
Inductive library_state : ValidationRequest → Prop :=
| state_fresh parts :
    library_state (fresh_request parts)
| state_getters getters req :
    library_state req → library_state (with_getters getters req)
| state_parts parts req :
    library_state req → library_state (with_parts parts req)
| state_configured configs req :
    library_state req →
    library_state (out_req (expressZodValidations configs req))
| state_validated props options req :
    wf_props props →
    library_state req →
    library_state (out_req (validate props options req)).

(** The two switches as the invocation uses them. *)
Definition effective_throwErrors (req : ValidationRequest) : bool :=
  (read_configs req).1.

Definition effective_overwriteRequest (req : ValidationRequest) : bool :=
  (read_configs req).2.

(** Two outcomes agree on everything but the configuration record. *)
Definition same_effects (o o' : Outcome) : Prop :=
  out_next o = out_next o' ∧
  out_parsed o = out_parsed o' ∧
  req_parts (out_req o) = req_parts (out_req o') ∧
  validationErrors (out_req o) = validationErrors (out_req o') ∧
  validationValues (out_req o) = validationValues (out_req o').

(** The three fields of the interface are all present. *)
Definition initialised (req : ValidationRequest) : Prop :=
  is_Some (validationConfigs req) ∧
  is_Some (validationErrors req) ∧
  is_Some (validationValues req).

(** [key] has an entry in exactly one of the two maps. *)
Definition in_one_map (key : string) (req : ValidationRequest) : Prop :=
  (is_Some (values_of req !! key) ∧ errors_of req !! key = None) ∨
  (is_Some (errors_of req !! key) ∧ values_of req !! key = None).

(** No schema of the map throws on the data the request holds for its
    key. *)
Definition no_rejection (props : ValidationProps) (options : ValidationOptions)
    (req : ValidationRequest) : Prop :=
  ∀ key schema reason,
    (key, Some schema) ∈ props →
    safeParseAsync schema (req_get key req) options ≠ ParseRejected reason.

(** Where the argument of [next] comes from when the turn of [key] ends
    the invocation: line 60 passes the error of the rejection, under
    [throwErrors]; the [catch] passes what the schema threw, or the
    [TypeError] of line 56 when the accepted part has a getter only. *)
Definition next_origin (tE oR : bool) (opts : ValidationOptions)
    (key : string) (schema : ZodType) (req : ValidationRequest)
    (arg : NextArg) : Prop :=
  match arg with
  | ArgZodError error =>
      tE = true ∧
      safeParseAsync schema (req_get key req) opts = ParseFailure error
  | ArgThrown reason =>
      safeParseAsync schema (req_get key req) opts = ParseRejected reason ∨
      (oR = true ∧
       key ∈ req_getters req ∧
       reason = TypeError_getter_only key ∧
       ∃ data,
         safeParseAsync schema (req_get key req) opts = ParseSuccess data)
  end.

(** Under [overwriteRequest] every configured part can be assigned to. *)
Definition writes_succeed (props : ValidationProps) (req : ValidationRequest)
  : Prop :=
  effective_overwriteRequest req = true →
  ∀ key, key ∈ configured_keys props → key ∉ req_getters req.

(** The schema map without the entries whose schema is [undefined]. *)
Definition defined_entries (props : ValidationProps) : ValidationProps :=
  filter (λ entry, is_Some entry.2) props.

(** The four wrappers of lines 70-79 with the key each one binds. *)
Definition part_wrappers
  : list (string *
          (ZodType → ValidationOptions → ValidationRequest → Outcome)) :=
  [("headers", validateHeaders); ("params", validateParams);
   ("query", validateQuery); ("body", validateBody)].

(** ** Sample schemas

    Small stand-ins for the schemas of the test suite. *)

Definition invalid_type (expected : string) : ZodError :=
  {| issues := [ {| issue_code := "invalid_type";
                    issue_path := [];
                    issue_message := expected |} ] |}.

(** [z.string()] *)
Definition zString : ZodType :=
  {| safeParseAsync input _ :=
       match input with
       | JsString s => ParseSuccess (JsString s)
       | _ => ParseFailure (invalid_type "expected string")
       end |}.

(** [z.string().transform((val) => val.length)] *)
Definition zStringLength : ZodType :=
  {| safeParseAsync input _ :=
       match input with
       | JsString s => ParseSuccess (JsNumber (Z.of_nat (String.length s)))
       | _ => ParseFailure (invalid_type "expected string")
       end |}.

(** [z.any()] *)
Definition zAny : ZodType :=
  {| safeParseAsync input _ := ParseSuccess input |}.

(** A schema with an async refinement that throws. *)
Definition zThrowing (reason : JsValue) : ZodType :=
  {| safeParseAsync _ _ := ParseRejected reason |}.

(** * Properties *)

(** ** Initialisation and configuration *)


Lemma ensure_state_errors req : errors_of (ensure_state req) = errors_of req.
Proof. done. Qed.

Lemma ensure_state_values req : values_of (ensure_state req) = values_of req.
Proof. done. Qed.

Lemma ensure_state_same_at key req : same_at key req (ensure_state req).
Proof. done. Qed.

Lemma read_configs_ensure_state req :
  read_configs (ensure_state req) = read_configs req.
Proof. unfold read_configs. simpl. by destruct (validationConfigs req). Qed.

Lemma validate_unfold props options req :
  validate props options req =
  validate_entries (read_configs req).1 (read_configs req).2 options props
    (ensure_state req).
Proof.
  unfold validate. rewrite read_configs_ensure_state.
  by destruct (read_configs req).
Qed.

Lemma same_at_refl key req : same_at key req req.
Proof. done. Qed.

Lemma same_at_trans key req1 req2 req3 :
  same_at key req1 req2 → same_at key req2 req3 → same_at key req1 req3.
Proof.
  intros (Hp & Hv & He) (Hp' & Hv' & He').
  unfold same_at. by rewrite Hp', Hv', He'.
Qed.

Lemma same_at_req_get key req req' :
  same_at key req req' → req_get key req' = req_get key req.
Proof. intros (Hp & _). unfold req_get. by rewrite Hp. Qed.

Lemma same_at_in_both key req req' :
  same_at key req req' → in_both_maps key req' → in_both_maps key req.
Proof. intros (_ & Hv & He). unfold in_both_maps. by rewrite Hv, He. Qed.

Lemma configured_keys_cons_Some key schema (rest : ValidationProps) :
  configured_keys ((key, Some schema) :: rest) = key :: configured_keys rest.
Proof. done. Qed.

Lemma configured_keys_cons_None key (rest : ValidationProps) :
  configured_keys ((key, None) :: rest) = configured_keys rest.
Proof. done. Qed.

Lemma writable_true key req : key ∉ req_getters req → writable key req = true.
Proof. intros Hnot. by apply bool_decide_eq_true_2. Qed.

Lemma writable_false key req : key ∈ req_getters req → writable key req = false.
Proof. intros Hin. apply bool_decide_eq_false_2. by intros Hnot. Qed.

(** ** One turn of the loop *)

Section entry.
Variables (tE oR : bool) (opts : ValidationOptions).

(** A turn for [key] touches nothing the request holds for another key. *)
Lemma validate_entry_same_at key schema req key' :
  key' ≠ key →
  same_at key' req (flow_req (validate_entry tE oR opts key schema req)).
Proof.
  intros Hne. unfold validate_entry, req_set, same_at.
  destruct (safeParseAsync schema _ _);
    [destruct oR; [case_decide|] | destruct tE |];
    simpl; unfold values_of, errors_of; simpl;
    rewrite ?lookup_insert_ne, ?lookup_delete_ne by done; done.
Qed.

Lemma validate_entry_success key schema req data :
  safeParseAsync schema (req_get key req) opts = ParseSuccess data →
  ∃ req',
    validate_entry tE oR opts key schema req =
      (if oR && negb (writable key req)
       then Return req' (ArgThrown (TypeError_getter_only key))
       else Continue req') ∧
    values_of req' !! key = Some data ∧
    errors_of req' !! key = None ∧
    req_parts req' !! key =
      (if oR && writable key req then Some data else req_parts req !! key).
Proof.
  intros Hparse. unfold validate_entry, req_set. rewrite Hparse. simpl.
  destruct oR; simpl.
  - case_decide as Hget.
    + rewrite (writable_false _ _ Hget). simpl. eexists; split; [done|].
      unfold values_of, errors_of; simpl.
      by rewrite lookup_insert_eq, lookup_delete_eq.
    + rewrite (writable_true _ _ Hget). simpl. eexists; split; [done|].
      unfold values_of, errors_of; simpl.
      by rewrite !lookup_insert_eq, lookup_delete_eq.
  - eexists; split; [done|].
    unfold values_of, errors_of; simpl.
    by rewrite lookup_insert_eq, lookup_delete_eq.
Qed.

Lemma validate_entry_failure key schema req error :
  safeParseAsync schema (req_get key req) opts = ParseFailure error →
  ∃ req',
    validate_entry tE oR opts key schema req =
      (if tE then Return req' (ArgZodError error) else Continue req') ∧
    errors_of req' !! key = Some error ∧
    values_of req' !! key = None ∧
    req_parts req' = req_parts req.
Proof.
  intros Hparse. unfold validate_entry. rewrite Hparse.
  eexists; split; [done|].
  unfold values_of, errors_of; simpl.
  rewrite ?lookup_insert_eq, ?lookup_delete_eq; done.
Qed.

Lemma validate_entry_rejected key schema req reason :
  safeParseAsync schema (req_get key req) opts = ParseRejected reason →
  validate_entry tE oR opts key schema req = Return req (ArgThrown reason).
Proof. intros Hparse. unfold validate_entry. by rewrite Hparse. Qed.

(** A turn never puts a key into both maps. *)
Lemma validate_entry_in_both key schema req key' :
  in_both_maps key' (flow_req (validate_entry tE oR opts key schema req)) →
  in_both_maps key' req.
Proof.
  destruct (decide (key' = key)) as [->|Hne].
  - destruct (safeParseAsync schema (req_get key req) opts)
      as [d|e|x] eqn:Hparse.
    + destruct (validate_entry_success _ _ _ _ Hparse)
        as (req' & -> & _ & He & _).
      intros [_ [? Hs]].
      destruct (oR && negb (writable key req)); simpl in Hs; congruence.
    + destruct (validate_entry_failure _ _ _ _ Hparse)
        as (req' & -> & _ & Hv & _).
      intros [[? Hs] _]. destruct tE; simpl in Hs; congruence.
    + by rewrite (validate_entry_rejected _ _ _ _ Hparse).
  - apply same_at_in_both. by apply validate_entry_same_at.
Qed.

Lemma validate_entry_parts_kept key schema req :
  oR = false →
  req_parts (flow_req (validate_entry tE oR opts key schema req)) =
  req_parts req.
Proof.
  intros ->. unfold validate_entry.
  destruct (safeParseAsync schema _ _); [| destruct tE |]; done.
Qed.

(** No turn changes which properties have a getter only. *)
Lemma validate_entry_getters key schema req :
  req_getters (flow_req (validate_entry tE oR opts key schema req)) =
  req_getters req.
Proof.
  unfold validate_entry, req_set.
  destruct (safeParseAsync schema _ _);
    [destruct oR; [case_decide|] | destruct tE |]; done.
Qed.

(** ** The loop *)

Lemma validate_entries_app pre post req :
  validate_entries tE oR opts (pre ++ post) req =
  let o := validate_entries tE oR opts pre req in
  match out_next o with
  | None =>
      let o' := validate_entries tE oR opts post (out_req o) in
      {| out_req := out_req o';
         out_next := out_next o';
         out_parsed := out_parsed o ++ out_parsed o' |}
  | Some _ => o
  end.
Proof.
  revert req. induction pre as [|[key [schema|]] pre IH]; intros req; simpl.
  - by destruct (validate_entries _ _ _ post req).
  - destruct (validate_entry tE oR opts key schema req) as [req'|req' arg];
      [|done].
    rewrite IH. simpl. by destruct (out_next _).
  - apply IH.
Qed.

Lemma validate_entries_same_at entries req key :
  key ∉ configured_keys entries →
  same_at key req (out_req (validate_entries tE oR opts entries req)).
Proof.
  revert req.
  induction entries as [|[k [schema|]] rest IH]; intros req Hnot; simpl.
  - done.
  - rewrite configured_keys_cons_Some in Hnot.
    apply not_elem_of_cons in Hnot as [Hne Hrest].
    pose proof (validate_entry_same_at k schema req key Hne) as Hstep.
    destruct (validate_entry tE oR opts k schema req) as [req'|req' arg];
      simpl in *; [|done].
    eapply same_at_trans; [exact Hstep|]. by apply IH.
  - by apply IH.
Qed.

Lemma validate_entries_parsed entries req :
  let o := validate_entries tE oR opts entries req in
  out_parsed o `prefix_of` configured_keys entries ∧
  (out_next o = None → out_parsed o = configured_keys entries).
Proof.
  revert req.
  induction entries as [|[k [schema|]] rest IH]; intros req; simpl.
  - done.
  - rewrite configured_keys_cons_Some.
    destruct (validate_entry tE oR opts k schema req) as [req'|req' arg];
      simpl.
    + destruct (IH req') as [Hpre Heq]. split.
      * by apply prefix_cons.
      * intros Hnone. f_equal. by apply Heq.
    + split; [|done]. apply prefix_cons, prefix_nil.
  - rewrite configured_keys_cons_None. apply IH.
Qed.

Lemma validate_entries_in_both entries req key :
  in_both_maps key (out_req (validate_entries tE oR opts entries req)) →
  in_both_maps key req.
Proof.
  revert req.
  induction entries as [|[k [schema|]] rest IH]; intros req; simpl.
  - done.
  - pose proof (validate_entry_in_both k schema req key) as Hstep.
    destruct (validate_entry tE oR opts k schema req) as [req'|req' arg];
      simpl in *; [|done].
    intros Hboth. by apply Hstep, IH.
  - apply IH.
Qed.

Lemma validate_entries_parts_kept entries req :
  oR = false →
  req_parts (out_req (validate_entries tE oR opts entries req)) =
  req_parts req.
Proof.
  intros Hoff. revert req.
  induction entries as [|[k [schema|]] rest IH]; intros req; simpl.
  - done.
  - pose proof (validate_entry_parts_kept k schema req Hoff) as Hstep.
    destruct (validate_entry tE oR opts k schema req) as [req'|req' arg];
      simpl in *; [|done].
    by rewrite IH.
  - apply IH.
Qed.

(** Without [throwErrors] no [ZodError] reaches [next]. *)
Lemma validate_entries_no_throw entries req error :
  tE = false →
  out_next (validate_entries tE oR opts entries req) ≠
  Some (ArgZodError error).
Proof.
  intros ->. revert req.
  induction entries as [|[k [schema|]] rest IH]; intros req; simpl.
  - done.
  - unfold validate_entry.
    destruct (safeParseAsync schema _ _); simpl; [|apply IH|done].
    destruct oR; [|apply IH].
    destruct (req_set _ _ _); [apply IH|done].
  - apply IH.
Qed.

Lemma validate_entries_getters entries req :
  req_getters (out_req (validate_entries tE oR opts entries req)) =
  req_getters req.
Proof.
  revert req.
  induction entries as [|[k [schema|]] rest IH]; intros req; simpl.
  - done.
  - pose proof (validate_entry_getters k schema req) as Hstep.
    destruct (validate_entry tE oR opts k schema req) as [req'|req' arg];
      simpl in *; [|done].
    by rewrite IH.
  - apply IH.
Qed.

End entry.

(** ** What an invocation leaves for a configured key *)

Lemma configured_keys_subseteq (props : ValidationProps) key :
  key ∈ configured_keys props → key ∈ props.*1.
Proof.
  unfold configured_keys. intros Hin.
  apply list_elem_of_fmap in Hin as (entry & -> & Hin).
  apply list_elem_of_filter in Hin as [_ Hin].
  apply list_elem_of_fmap. eauto.
Qed.

Lemma configured_keys_elem_of (props : ValidationProps) key schema :
  (key, Some schema) ∈ props → key ∈ configured_keys props.
Proof.
  intros Hin. unfold configured_keys. apply list_elem_of_fmap.
  exists (key, Some schema). split; [done|].
  apply list_elem_of_filter. split; [simpl; eauto | done].
Qed.

Lemma settled_same_at_l oR opts key schema req req' after :
  same_at key req req' →
  req_getters req' = req_getters req →
  settled oR opts key schema req' after → settled oR opts key schema req after.
Proof.
  intros Hsame Hget. unfold settled, writable. rewrite Hget.
  rewrite (same_at_req_get _ _ _ Hsame).
  destruct Hsame as (Hp & Hv & He).
  destruct (safeParseAsync schema _ _); rewrite ?Hp; [done..|].
  intros (Hp' & Hv' & He'). unfold same_at. by rewrite Hp', Hv', He', Hp, Hv, He.
Qed.

Lemma settled_same_at_r oR opts key schema req after after' :
  same_at key after after' →
  settled oR opts key schema req after → settled oR opts key schema req after'.
Proof.
  intros (Hp & Hv & He). unfold settled, same_at.
  destruct (safeParseAsync schema _ _); rewrite Hp, Hv, He; done.
Qed.

Lemma validate_entry_settled tE oR opts key schema req :
  settled oR opts key schema req
    (flow_req (validate_entry tE oR opts key schema req)).
Proof.
  unfold settled.
  destruct (safeParseAsync schema (req_get key req) opts) as [d|e|x] eqn:Hparse.
  - destruct (validate_entry_success tE oR opts _ _ _ _ Hparse)
      as (req' & -> & ? & ? & ?).
    by destruct (oR && negb (writable key req)).
  - destruct (validate_entry_failure tE oR opts _ _ _ _ Hparse)
      as (req' & -> & ? & ? & Hp).
    rewrite <- Hp. by destruct tE.
  - by rewrite (validate_entry_rejected tE oR opts _ _ _ _ Hparse).
Qed.

Lemma validate_entries_settled tE oR opts entries req key schema :
  NoDup entries.*1 →
  (key, Some schema) ∈ entries →
  key ∈ out_parsed (validate_entries tE oR opts entries req) →
  settled oR opts key schema req
    (out_req (validate_entries tE oR opts entries req)).
Proof.
  revert req.
  induction entries as [|[k [s|]] rest IH]; intros req Hnd Hin Hparsed.
  - by apply elem_of_nil in Hin.
  - rewrite fmap_cons in Hnd. apply NoDup_cons in Hnd as [Hfresh Hnd].
    simpl in *. destruct (decide (k = key)) as [->|Hne].
    + assert (s = schema) as ->.
      { apply elem_of_cons in Hin as [Heq|Hin]; [congruence|].
        destruct Hfresh. apply list_elem_of_fmap. by exists (key, Some schema). }
      pose proof (validate_entry_settled tE oR opts key schema req) as Hstep.
      destruct (validate_entry tE oR opts key schema req) as [req'|req' arg];
        simpl in *; [|done].
      eapply settled_same_at_r; [|exact Hstep].
      apply validate_entries_same_at.
      intros Hc. by apply Hfresh, configured_keys_subseteq.
    + apply elem_of_cons in Hin as [Heq|Hin]; [congruence|].
      pose proof (validate_entry_same_at tE oR opts k s req key) as Hstep.
      pose proof (validate_entry_getters tE oR opts k s req) as Hget.
      destruct (validate_entry tE oR opts k s req) as [req'|req' arg];
        simpl in *.
      * apply elem_of_cons in Hparsed as [Heq|Hparsed]; [congruence|].
        eapply settled_same_at_l; [by apply Hstep; congruence|done|].
        by apply IH.
      * apply list_elem_of_singleton in Hparsed. congruence.
  - rewrite fmap_cons in Hnd. apply NoDup_cons in Hnd as [Hfresh Hnd].
    simpl in *. apply elem_of_cons in Hin as [Heq|Hin]; [congruence|].
    by apply IH.
Qed.

Lemma validate_settled props options req key schema :
  wf_props props →
  (key, Some schema) ∈ props →
  key ∈ out_parsed (validate props options req) →
  settled (read_configs req).2 options key schema req
    (out_req (validate props options req)).
Proof.
  intros [Hnd _] Hin. rewrite validate_unfold. intros Hparsed.
  eapply settled_same_at_l; [apply ensure_state_same_at|done|].
  by apply validate_entries_settled.
Qed.

Lemma validate_same_at props options req key :
  key ∉ configured_keys props →
  same_at key req (out_req (validate props options req)).
Proof.
  intros Hnot. rewrite validate_unfold.
  eapply same_at_trans; [apply ensure_state_same_at|].
  by apply validate_entries_same_at.
Qed.

(** ** The configuration record is only read before the loop *)

Lemma validate_entry_with_configs tE oR opts key schema configs req :
  validate_entry tE oR opts key schema (with_configs configs req) =
  match validate_entry tE oR opts key schema req with
  | Continue req' => Continue (with_configs configs req')
  | Return req' arg => Return (with_configs configs req') arg
  end.
Proof.
  unfold validate_entry, req_set.
  change (req_get key (with_configs configs req)) with (req_get key req).
  destruct (safeParseAsync schema _ _);
    [destruct oR; [simpl; case_decide|] | destruct tE |]; done.
Qed.

Lemma validate_entries_with_configs tE oR opts entries configs req :
  validate_entries tE oR opts entries (with_configs configs req) =
  let o := validate_entries tE oR opts entries req in
  {| out_req := with_configs configs (out_req o);
     out_next := out_next o;
     out_parsed := out_parsed o |}.
Proof.
  revert req. induction entries as [|[k [s|]] rest IH]; intros req; simpl.
  - done.
  - rewrite validate_entry_with_configs.
    destruct (validate_entry tE oR opts k s req) as [req'|req' arg]; [|done].
    by rewrite IH.
  - apply IH.
Qed.

Lemma validate_same_effects props options configs configs' req :
  read_configs (with_configs configs req) =
    read_configs (with_configs configs' req) →
  same_effects (validate props options (with_configs configs req))
    (validate props options (with_configs configs' req)).
Proof.
  intros Hread. rewrite !validate_unfold, Hread.
  change (ensure_state (with_configs configs req)) with
    (with_configs (Some (default (mkConfigs None None) configs))
       (ensure_state req)).
  change (ensure_state (with_configs configs' req)) with
    (with_configs (Some (default (mkConfigs None None) configs'))
       (ensure_state req)).
  rewrite !validate_entries_with_configs. done.
Qed.

(** ** Reaching an entry in the middle of the schema map *)

Lemma validate_app_cons pre key schema post options req :
  out_next (validate pre options req) = None →
  validate (pre ++ (key, Some schema) :: post) options req =
  let before := validate pre options req in
  let tE := effective_throwErrors req in
  let oR := effective_overwriteRequest req in
  match validate_entry tE oR options key schema (out_req before) with
  | Continue req' =>
      let o' := validate_entries tE oR options post req' in
      {| out_req := out_req o';
         out_next := out_next o';
         out_parsed := out_parsed before ++ key :: out_parsed o' |}
  | Return req' arg =>
      {| out_req := req';
         out_next := Some arg;
         out_parsed := out_parsed before ++ [key] |}
  end.
Proof.
  unfold effective_throwErrors, effective_overwriteRequest.
  rewrite !validate_unfold. intros Hnone.
  rewrite validate_entries_app. simpl. rewrite Hnone. simpl.
  by destruct (validate_entry _ _ _ key schema _).
Qed.

Lemma wf_props_app_cons pre key (schema : option ZodType) post :
  wf_props (pre ++ (key, schema) :: post) →
  (key ∉ pre.*1) ∧ (key ∉ post.*1) ∧ (∀ k, k ∈ post.*1 → k ∉ pre.*1).
Proof.
  intros [Hnd _]. rewrite fmap_app, fmap_cons in Hnd. simpl in Hnd.
  apply NoDup_app in Hnd as (_ & Hdisj & Hnd).
  apply NoDup_cons in Hnd as [Hfresh _].
  split; [|split].
  - intros Hin. apply (Hdisj _ Hin). left.
  - done.
  - intros k Hpost Hpre. apply (Hdisj _ Hpre). by right.
Qed.

Lemma validate_parsed_subseteq props options req key :
  key ∈ out_parsed (validate props options req) → key ∈ props.*1.
Proof.
  rewrite validate_unfold. intros Hin. apply configured_keys_subseteq.
  destruct (validate_entries_parsed (read_configs req).1 (read_configs req).2
              options props (ensure_state req)) as [Hpre _].
  destruct Hpre as [rest ->]. apply elem_of_app. by left.
Qed.

Lemma validate_reaches_unchanged pre options req key :
  key ∉ pre.*1 →
  same_at key req (out_req (validate pre options req)).
Proof.
  intros Hnot. apply validate_same_at.
  intros Hin. by apply Hnot, configured_keys_subseteq.
Qed.

Lemma validate_parsed_prefix props options req :
  let o := validate props options req in
  out_parsed o `prefix_of` configured_keys props ∧
  (out_next o = None → out_parsed o = configured_keys props).
Proof.
  intros o. subst o. rewrite validate_unfold. apply validate_entries_parsed.
Qed.

Lemma validate_in_both props options req key :
  in_both_maps key (out_req (validate props options req)) →
  in_both_maps key req.
Proof.
  rewrite validate_unfold. intros Hboth.
  by apply validate_entries_in_both in Hboth.
Qed.

Lemma library_state_disjoint req :
  library_state req → ∀ key, ¬ in_both_maps key req.
Proof.
  induction 1 as [parts|getters req _ IH|parts req _ IH|configs req _ IH
                 |props options req _ _ IH];
    intros key Hboth.
  - destruct Hboth as [[v Hv] _]. unfold values_of in Hv. simpl in Hv.
    by rewrite lookup_empty in Hv.
  - by apply (IH key).
  - by apply (IH key).
  - by apply (IH key).
  - by apply validate_in_both, (IH key) in Hboth.
Qed.

(** * The properties of the specification *)

(** C1. The value map and the error map never hold the same key.  On a
    request that only this library has written the three fields of, no
    key has an entry in both maps after an invocation; on any request at
    all, an invocation puts no key into both maps; and for every part it
    reaches, an accepting schema leaves no error entry for the key and a
    rejecting schema leaves no value entry. *)
Theorem validate_maps_stay_disjoint props options req :
  wf_props props →
  let after := out_req (validate props options req) in
  (library_state req → ∀ key, ¬ in_both_maps key after) ∧
  (∀ key, in_both_maps key after → in_both_maps key req) ∧
  (∀ key schema,
     (key, Some schema) ∈ props →
     key ∈ out_parsed (validate props options req) →
     (∀ data,
        safeParseAsync schema (req_get key req) options = ParseSuccess data →
        errors_of after !! key = None) ∧
     (∀ error,
        safeParseAsync schema (req_get key req) options = ParseFailure error →
        values_of after !! key = None)).
Proof.
  intros Hwf after. split; [|split].
  - intros Hstate. apply library_state_disjoint. by constructor.
  - intros key. apply validate_in_both.
  - intros key schema Hin Hparsed.
    pose proof (validate_settled _ options req _ _ Hwf Hin Hparsed) as Hs.
    unfold settled in Hs. fold after in Hs.
    split; intros x Hparse; rewrite Hparse in Hs; by destruct Hs as (? & ? & ?).
Qed.

(** C2. For a configured part that the invocation reaches: if the schema
    accepts the request data, the value map holds the parsed output under
    the key and the error map has no entry for it; if the schema rejects
    the data, the error map holds the [ZodError] under the key and the
    value map has no entry for it. *)
Theorem validate_records_outcome props options req key schema :
  wf_props props →
  (key, Some schema) ∈ props →
  key ∈ out_parsed (validate props options req) →
  let after := out_req (validate props options req) in
  (∀ data,
     safeParseAsync schema (req_get key req) options = ParseSuccess data →
     values_of after !! key = Some data ∧ errors_of after !! key = None) ∧
  (∀ error,
     safeParseAsync schema (req_get key req) options = ParseFailure error →
     errors_of after !! key = Some error ∧ values_of after !! key = None).
Proof.
  intros Hwf Hin Hparsed after.
  pose proof (validate_settled _ options req _ _ Hwf Hin Hparsed) as Hs.
  unfold settled in Hs. fold after in Hs.
  split; intros x Hparse; rewrite Hparse in Hs; by destruct Hs as (? & ? & ?).
Qed.

(** C3. With [throwErrors] in force, the first configured part whose
    schema rejects its data ends the invocation: [next] is called with
    that part's [ZodError], no schema of a later entry is run and nothing
    the request holds for a later key changes, and what the request holds
    for every other key is what the entries before had left. *)
Theorem validate_stops_at_first_failure
    pre key schema post options req error :
  wf_props (pre ++ (key, Some schema) :: post) →
  effective_throwErrors req = true →
  out_next (validate pre options req) = None →
  safeParseAsync schema (req_get key req) options = ParseFailure error →
  let before := validate pre options req in
  let o := validate (pre ++ (key, Some schema) :: post) options req in
  out_next o = Some (ArgZodError error) ∧
  out_parsed o = out_parsed before ++ [key] ∧
  (∀ later, later ∈ post.*1 →
     (later ∉ out_parsed o) ∧ same_at later req (out_req o)) ∧
  (∀ other, other ≠ key → same_at other (out_req before) (out_req o)).
Proof.
  intros Hwf HtE Hnone Hparse before o.
  destruct (wf_props_app_cons _ _ _ _ Hwf) as (Hpre & Hpost & Hdisj).
  pose proof (validate_reaches_unchanged pre options req key Hpre) as Hkey.
  fold before in Hkey.
  rewrite <- (same_at_req_get _ _ _ Hkey) in Hparse.
  pose proof (validate_entry_same_at (effective_throwErrors req)
    (effective_overwriteRequest req) options key schema (out_req before))
    as Hstep.
  subst o. rewrite (validate_app_cons _ _ _ _ _ _ Hnone). simpl. fold before.
  destruct (validate_entry_failure (effective_throwErrors req)
    (effective_overwriteRequest req) options _ _ _ _ Hparse)
    as (req' & Hentry & _).
  rewrite Hentry, HtE in *. simpl in *.
  split; [done|]. split; [done|]. split; [|by intros other; apply Hstep].
  intros later Hlater. split.
  - intros [Hin|Hin]%elem_of_app.
    + by apply validate_parsed_subseteq, Hdisj in Hin.
    + apply list_elem_of_singleton in Hin. congruence.
  - eapply same_at_trans.
    + apply validate_reaches_unchanged. by apply Hdisj.
    + apply Hstep. congruence.
Qed.

(** C8. When awaiting a schema throws, [next] is called with exactly
    what was thrown and the request is left as the entries before had
    made it: nothing is written for the throwing part, and the values and
    errors recorded for earlier parts stay. *)
Theorem validate_forwards_exception pre key schema post options req reason :
  wf_props (pre ++ (key, Some schema) :: post) →
  out_next (validate pre options req) = None →
  safeParseAsync schema (req_get key req) options = ParseRejected reason →
  let before := validate pre options req in
  let o := validate (pre ++ (key, Some schema) :: post) options req in
  out_next o = Some (ArgThrown reason) ∧
  out_req o = out_req before ∧
  out_parsed o = out_parsed before ++ [key] ∧
  errors_of (out_req o) !! key = errors_of req !! key.
Proof.
  intros Hwf Hnone Hparse before o.
  destruct (wf_props_app_cons _ _ _ _ Hwf) as (Hpre & _ & _).
  pose proof (validate_reaches_unchanged pre options req key Hpre) as Hkey.
  fold before in Hkey.
  rewrite <- (same_at_req_get _ _ _ Hkey) in Hparse.
  subst o. rewrite (validate_app_cons _ _ _ _ _ _ Hnone). simpl. fold before.
  rewrite (validate_entry_rejected _ _ _ _ _ _ _ Hparse). simpl.
  by destruct Hkey as (_ & _ & He).
Qed.

(** C5 (as the code has it). The schemas are run one after the other in
    the order of the entries of the schema map: the keys parsed are an
    initial segment of the configured keys in entry order, and all of
    them when the invocation ends with [next()]. *)
Theorem validate_parses_in_entry_order props options req :
  wf_props props →
  let o := validate props options req in
  out_parsed o `prefix_of` configured_keys props ∧
  (out_next o = None → out_parsed o = configured_keys props).
Proof.
  intros _. apply validate_parsed_prefix.
Qed.

(** C6 (what the code does).  On a request whose [query] has a getter
    only, with [overwriteRequest: true], a query that [validateQuery]
    accepts is stored in the value map, the write of line 56 throws, the
    [TypeError] is handed to [next], and [req.query] is still the data
    the request came with, not the parsed output. *)
Theorem overwriteRequest_throws_on_getter_only_query :
  let req0 :=
    with_getters {[ "query" ]}
      (fresh_request {[ "query" := JsString "page=2" ]}) in
  let req1 :=
    out_req (expressZodValidations (mkConfigs None (Some true)) req0) in
  let o := validateQuery zStringLength None req1 in
  effective_overwriteRequest req1 = true ∧
  safeParseAsync zStringLength (req_get "query" req1) None =
    ParseSuccess (JsNumber 6) ∧
  out_next o = Some (ArgThrown (TypeError_getter_only "query")) ∧
  values_of (out_req o) !! "query" = Some (JsNumber 6) ∧
  req_get "query" (out_req o) = JsString "page=2".
Proof. by vm_compute. Qed.

(** C7 (as the code has it). A key without a schema in the schema map,
    absent or mapped to [undefined], is ignored: no schema is run for it
    and nothing the request holds for it changes.  A key with a schema is
    parsed whatever its name, whenever the invocation ends with [next()]. *)
Theorem validate_ignores_unconfigured_keys props options req key :
  wf_props props →
  let o := validate props options req in
  (key ∉ configured_keys props →
   (key ∉ out_parsed o) ∧ same_at key req (out_req o)) ∧
  (key ∈ configured_keys props → out_next o = None → key ∈ out_parsed o).
Proof.
  intros Hwf o.
  destruct (validate_parsed_prefix props options req)
    as [[rest Hpre] Hall].
  fold o in Hpre, Hall. split.
  - intros Hnot. split; [|by apply validate_same_at].
    intros Hin. apply Hnot. rewrite Hpre. apply elem_of_app. by left.
  - intros Hin Hnone. by rewrite Hall.
Qed.

(** C9. An invocation changes the value-map and error-map entries of
    the keys configured in its own schema map only: for every other key
    both entries are the same before and after, whatever earlier
    validators had recorded. *)
Theorem validate_keeps_other_entries props options req key :
  wf_props props →
  key ∉ configured_keys props →
  let after := out_req (validate props options req) in
  values_of after !! key = values_of req !! key ∧
  errors_of after !! key = errors_of req !! key.
Proof.
  intros _ Hnot after.
  by destruct (validate_same_at props options req key Hnot) as (_ & ? & ?).
Qed.

(** C10. Each switch is resolved on its own when the invocation starts:
    a switch missing from the configuration record acts as [false]
    whatever the other one is, a missing or empty record acts as both
    [false], and a record the configuration middleware stored with one
    switch only leaves the other acting as [false].  So without
    [throwErrors] no [ZodError] is handed to [next], and without
    [overwriteRequest] the request's own properties stay as they were. *)
Theorem validate_resolves_configs_per_field
    props options req (given : option bool) :
  wf_props props →
  let run configs := validate props options (with_configs configs req) in
  let off := Some false in
  same_effects (run None) (run (Some (mkConfigs off off))) ∧
  same_effects (run (Some (mkConfigs None None)))
    (run (Some (mkConfigs off off))) ∧
  same_effects (run (Some (mkConfigs None given)))
    (run (Some (mkConfigs off given))) ∧
  same_effects (run (Some (mkConfigs given None)))
    (run (Some (mkConfigs given off))) ∧
  same_effects
    (validate props options
       (out_req (expressZodValidations (mkConfigs given None) req)))
    (run (Some (mkConfigs given off))) ∧
  (∀ error,
     out_next (run (Some (mkConfigs None given))) ≠ Some (ArgZodError error)) ∧
  req_parts (out_req (run (Some (mkConfigs given None)))) = req_parts req.
Proof.
  intros _ run off. subst run off. simpl.
  repeat split_and; try by apply validate_same_effects.
  - intros error. rewrite validate_unfold. by apply validate_entries_no_throw.
  - rewrite validate_unfold. by rewrite validate_entries_parts_kept.
Qed.

(** C4 (what the code does). With [throwErrors: true] set through the
    configuration middleware, a body that fails [validateBody] is handed
    to [next] and is also stored in the error map under [body]. *)
Theorem throwErrors_still_records_error :
  let req0 := fresh_request {[ "body" := JsNumber 42 ]} in
  let req1 :=
    out_req (expressZodValidations (mkConfigs (Some true) None) req0) in
  let o := validateBody zString None req1 in
  out_next o = Some (ArgZodError (invalid_type "expected string")) ∧
  errors_of (out_req o) !! "body" = Some (invalid_type "expected string").
Proof. by vm_compute. Qed.

(** * The properties at concrete requests *)

(** The scenarios of the test suite. *)

(** "should store validation errors when throwErrors is false" *)
Example validateBody_stores_error :
  let o := validateBody zString None (fresh_request {[ "body" := JsNull ]}) in
  out_next o = None ∧
  errors_of (out_req o) !! "body" = Some (invalid_type "expected string") ∧
  values_of (out_req o) !! "body" = None.
Proof. by vm_compute. Qed.

(** "should collect errors from multiple parts" *)
Example validate_collects_errors :
  let props := [("params", Some zString); ("body", Some zString)] in
  let o := validate props None (fresh_request ∅) in
  out_next o = None ∧
  is_Some (errors_of (out_req o) !! "params") ∧
  is_Some (errors_of (out_req o) !! "body").
Proof. vm_compute. eauto. Qed.

(** "should chain multiple validation middlewares" *)
Example chained_validators_keep_both :
  let req :=
    fresh_request
      {[ "headers" := JsString "Bearer token"; "body" := JsString "John" ]} in
  let o1 := validateHeaders zString None req in
  let o2 := validateBody zStringLength None (out_req o1) in
  out_next o1 = None ∧ out_next o2 = None ∧
  values_of (out_req o2) !! "headers" = Some (JsString "Bearer token") ∧
  values_of (out_req o2) !! "body" = Some (JsNumber 4) ∧
  req_get "body" (out_req o2) = JsString "John".
Proof. by vm_compute. Qed.

(** "should overwrite request body when overwriteRequest is true" *)
Example overwriteRequest_replaces_body :
  let req0 := fresh_request {[ "body" := JsString "John" ]} in
  let req1 :=
    out_req (expressZodValidations (mkConfigs None (Some true)) req0) in
  let o := validateBody zStringLength None req1 in
  out_next o = None ∧ req_get "body" (out_req o) = JsNumber 4.
Proof. by vm_compute. Qed.

Ltac by_computation := apply (bool_decide_unpack _); vm_compute; exact I.

(** C5 as the specification words it fails on the schema map of the
    test "should validate multiple request parts at once": its entries
    are [params], [body], [headers], and the schemas run in that order,
    not in the order [headers], [params], [body]. *)
Lemma parse_order_follows_schema_map :
  let props :=
    [("params", Some zAny); ("body", Some zAny); ("headers", Some zAny)] in
  let o := validate props None (fresh_request ∅) in
  wf_props props ∧
  out_next o = None ∧
  out_parsed o = ["params"; "body"; "headers"] ∧
  fixed_order_keys props = ["headers"; "params"; "body"] ∧
  out_parsed o ≠ fixed_order_keys props.
Proof.
  intros props o. split; [by_computation|].
  repeat split; try (vm_compute; reflexivity).
  vm_compute. discriminate.
Qed.

(** C7 as the specification words it fails on a schema map with the key
    [cookies]: the schema is run on [req.cookies] and its output is
    stored in the value map. *)
Lemma foreign_key_is_validated :
  let props := [("cookies", Some zAny)] in
  let req := fresh_request {[ "cookies" := JsString "sid=1" ]} in
  let o := validate props None req in
  wf_props props ∧
  ("cookies" ∉ ValidationKeys) ∧
  out_parsed o = ["cookies"] ∧
  values_of (out_req o) !! "cookies" = Some (JsString "sid=1") ∧
  ¬ (("cookies" ∉ out_parsed o) ∧ same_at "cookies" req (out_req o)).
Proof.
  intros props req o. split; [by_computation|]. split; [by_computation|].
  split; [by vm_compute|]. split; [by vm_compute|].
  intros [Hnot _]. apply Hnot. vm_compute. left.
Qed.

(** C1 on a request whose headers pass and whose body fails. *)
Lemma validate_maps_stay_disjoint_witness :
  let props := [("headers", Some zString); ("body", Some zString)] in
  let req :=
    fresh_request {[ "headers" := JsString "Bearer t"; "body" := JsNumber 1 ]} in
  let after := out_req (validate props None req) in
  wf_props props ∧
  library_state req ∧
  (∀ key, ¬ in_both_maps key after) ∧
  errors_of after !! "headers" = None ∧
  values_of after !! "body" = None.
Proof.
  intros props req after.
  assert (wf_props props) as Hwf by by_computation.
  assert (library_state req) as Hstate by constructor.
  destruct (validate_maps_stay_disjoint props None req Hwf)
    as (Hdisj & _ & Hdel).
  split; [done|]. split; [done|]. split; [by apply Hdisj|]. split.
  - destruct (Hdel "headers" zString) as [Hok _];
      [by left | by_computation |].
    by apply (Hok (JsString "Bearer t")).
  - destruct (Hdel "body" zString) as [_ Hfail];
      [by right; left | by_computation |].
    by apply (Hfail (invalid_type "expected string")).
Defined.

(** C2 on a request whose headers pass (and are transformed) and whose
    body fails. *)
Lemma validate_records_outcome_witness :
  let props := [("headers", Some zStringLength); ("body", Some zString)] in
  let req :=
    fresh_request {[ "headers" := JsString "Bearer t"; "body" := JsNumber 1 ]} in
  let after := out_req (validate props None req) in
  wf_props props ∧
  "headers" ∈ out_parsed (validate props None req) ∧
  "body" ∈ out_parsed (validate props None req) ∧
  (values_of after !! "headers" = Some (JsNumber 8) ∧
   errors_of after !! "headers" = None) ∧
  (errors_of after !! "body" = Some (invalid_type "expected string") ∧
   values_of after !! "body" = None).
Proof.
  intros props req after.
  assert (wf_props props) as Hwf by by_computation.
  assert ("headers" ∈ out_parsed (validate props None req)) as Hh
    by by_computation.
  assert ("body" ∈ out_parsed (validate props None req)) as Hb
    by by_computation.
  split; [done|]. split; [done|]. split; [done|]. split.
  - destruct (validate_records_outcome props None req "headers" zStringLength)
      as [Hok _]; [done | by left | done |].
    by apply Hok.
  - destruct (validate_records_outcome props None req "body" zString)
      as [_ Hfail]; [done | by right; left | done |].
    by apply Hfail.
Defined.

(** C3 with [throwErrors: true]: [headers] pass, [body] fails, [query] is
    never looked at. *)
Lemma validate_stops_at_first_failure_witness :
  let pre := [("headers", Some zString)] in
  let post := [("query", Some zAny)] in
  let req :=
    with_configs (Some (mkConfigs (Some true) None))
      (fresh_request
         {[ "headers" := JsString "Bearer t"; "body" := JsNumber 1 ]}) in
  let o := validate (pre ++ ("body", Some zString) :: post) None req in
  wf_props (pre ++ ("body", Some zString) :: post) ∧
  effective_throwErrors req = true ∧
  out_next (validate pre None req) = None ∧
  out_next o = Some (ArgZodError (invalid_type "expected string")) ∧
  out_parsed o = ["headers"; "body"] ∧
  values_of (out_req o) !! "query" = None ∧
  values_of (out_req o) !! "headers" = Some (JsString "Bearer t").
Proof.
  intros pre post req o.
  assert (wf_props (pre ++ ("body", Some zString) :: post)) as Hwf
    by by_computation.
  destruct (validate_stops_at_first_failure pre "body" zString post None req
              (invalid_type "expected string") Hwf)
    as (Hnext & Hparsed & Hlater & Hother); [done..|].
  split; [done|]. split; [done|]. split; [done|]. split; [done|].
  split; [done|]. split.
  - destruct (Hlater "query") as [_ (_ & Hv & _)]; [by left|].
    by etrans; [exact Hv|].
  - destruct (Hother "headers") as (_ & Hv & _); [done|].
    by etrans; [exact Hv|].
Defined.

(** C5 on a schema map listing [query] before [headers], with [params]
    left undefined. *)
Lemma validate_parses_in_entry_order_witness :
  let props :=
    [("query", Some zAny); ("params", None); ("headers", Some zString)] in
  let o := validate props None (fresh_request ∅) in
  wf_props props ∧
  out_next o = None ∧
  out_parsed o = ["query"; "headers"].
Proof.
  intros props o.
  assert (wf_props props) as Hwf by by_computation.
  split; [done|]. split; [done|].
  by apply (validate_parses_in_entry_order props None (fresh_request ∅) Hwf).
Defined.

(** C7 on a schema map with a schema for [cookies] and none for [body]. *)
Lemma validate_ignores_unconfigured_keys_witness :
  let props := [("cookies", Some zAny); ("body", None)] in
  let req :=
    fresh_request {[ "cookies" := JsString "sid=1"; "body" := JsNumber 1 ]} in
  let o := validate props None req in
  wf_props props ∧
  ("body" ∉ configured_keys props) ∧
  ("body" ∉ out_parsed o) ∧
  same_at "body" req (out_req o) ∧
  "cookies" ∈ configured_keys props ∧
  out_next o = None ∧
  "cookies" ∈ out_parsed o.
Proof.
  intros props req o.
  assert (wf_props props) as Hwf by by_computation.
  assert ("body" ∉ configured_keys props) as Hnot by by_computation.
  assert ("cookies" ∈ configured_keys props) as Hin by by_computation.
  split; [done|]. split; [done|].
  destruct (validate_ignores_unconfigured_keys props None req "body" Hwf)
    as [Hignored _].
  destruct (validate_ignores_unconfigured_keys props None req "cookies" Hwf)
    as [_ Hparsed].
  split; [by apply Hignored|]. split; [by apply Hignored|].
  split; [done|]. split; [done|]. by apply Hparsed.
Defined.

(** C8: [headers] fail and are recorded, then the schema of [body]
    throws. *)
Lemma validate_forwards_exception_witness :
  let pre := [("headers", Some zString)] in
  let post := [("query", Some zAny)] in
  let boom := JsObject [("message", JsString "lookup failed")] in
  let req :=
    fresh_request {[ "headers" := JsNumber 0; "body" := JsNumber 1 ]} in
  let o := validate (pre ++ ("body", Some (zThrowing boom)) :: post) None req in
  wf_props (pre ++ ("body", Some (zThrowing boom)) :: post) ∧
  out_next (validate pre None req) = None ∧
  out_next o = Some (ArgThrown boom) ∧
  out_req o = out_req (validate pre None req) ∧
  errors_of (out_req o) !! "body" = None ∧
  errors_of (out_req o) !! "headers" = Some (invalid_type "expected string").
Proof.
  intros pre post boom req o.
  assert (wf_props (pre ++ ("body", Some (zThrowing boom)) :: post)) as Hwf
    by by_computation.
  destruct (validate_forwards_exception pre "body" (zThrowing boom) post None
              req boom Hwf)
    as (Hnext & Hreq & Hparsed & Herr); [done..|].
  split; [done|]. split; [done|]. split; [done|]. split; [done|].
  split; [by etrans; [exact Herr|] |].
  by replace (out_req o) with (out_req (validate pre None req)).
Defined.

(** C9: [validateBody] after [validateHeaders] leaves the entries of
    [headers] alone. *)
Lemma validate_keeps_other_entries_witness :
  let parts : gmap string JsValue :=
    {[ "headers" := JsString "Bearer t"; "body" := JsNumber 1 ]} in
  let req := out_req (validateHeaders zString None (fresh_request parts)) in
  let props := [("body", Some zString)] in
  let after := out_req (validate props None req) in
  wf_props props ∧
  ("headers" ∉ configured_keys props) ∧
  values_of after !! "headers" = Some (JsString "Bearer t") ∧
  errors_of after !! "headers" = None.
Proof.
  intros parts req props after.
  assert (wf_props props) as Hwf by by_computation.
  assert ("headers" ∉ configured_keys props) as Hnot by by_computation.
  destruct (validate_keeps_other_entries props None req "headers" Hwf Hnot)
    as [Hv He].
  split; [done|]. split; [done|]. split.
  - by etrans; [exact Hv|].
  - by etrans; [exact He|].
Defined.

(** C10 after [expressZodValidations({ throwErrors: true })]. *)
Lemma validate_resolves_configs_per_field_witness :
  let props := [("body", Some zStringLength)] in
  let req := fresh_request {[ "body" := JsNumber 1 ]} in
  wf_props props ∧
  same_effects
    (validate props None
       (out_req (expressZodValidations (mkConfigs (Some true) None) req)))
    (validate props None
       (with_configs (Some (mkConfigs (Some true) (Some false))) req)).
Proof.
  intros props req.
  assert (wf_props props) as Hwf by by_computation.
  split; [done|].
  by destruct (validate_resolves_configs_per_field props None req (Some true)
                 Hwf) as (_ & _ & _ & _ & Hset & _).
Defined.

(** * Further properties of the middlewares *)

(** ** The bookkeeping fields across an invocation *)

Lemma ensure_state_initialised req : initialised (ensure_state req).
Proof. unfold initialised. simpl. eauto. Qed.

Lemma ensure_state_id req : initialised req → ensure_state req = req.
Proof.
  destruct req as [parts getters configs errs vals].
  intros ([c ?] & [e ?] & [v ?]). simpl in *. by subst.
Qed.

Lemma validate_entry_configs tE oR opts key schema req :
  validationConfigs (flow_req (validate_entry tE oR opts key schema req)) =
  validationConfigs req.
Proof.
  unfold validate_entry, req_set.
  destruct (safeParseAsync schema _ _);
    [destruct oR; [case_decide|] | destruct tE |]; done.
Qed.

Lemma validate_entry_initialised tE oR opts key schema req :
  initialised req →
  initialised (flow_req (validate_entry tE oR opts key schema req)).
Proof.
  intros (Hc & He & Hv). unfold validate_entry, req_set, initialised.
  destruct (safeParseAsync schema _ _);
    [destruct oR; [case_decide|] | destruct tE |];
    simpl; eauto.
Qed.

Lemma validate_entries_configs tE oR opts entries req :
  validationConfigs (out_req (validate_entries tE oR opts entries req)) =
  validationConfigs req.
Proof.
  revert req.
  induction entries as [|[k [schema|]] rest IH]; intros req; simpl.
  - done.
  - pose proof (validate_entry_configs tE oR opts k schema req) as Hstep.
    destruct (validate_entry tE oR opts k schema req) as [req'|req' arg];
      simpl in *; [|done].
    by rewrite IH.
  - apply IH.
Qed.

Lemma validate_entries_initialised tE oR opts entries req :
  initialised req →
  initialised (out_req (validate_entries tE oR opts entries req)).
Proof.
  revert req.
  induction entries as [|[k [schema|]] rest IH]; intros req Hinit; simpl.
  - done.
  - pose proof (validate_entry_initialised tE oR opts k schema req Hinit)
      as Hstep.
    destruct (validate_entry tE oR opts k schema req) as [req'|req' arg];
      simpl in *; [|done].
    by apply IH.
  - by apply IH.
Qed.

Lemma validate_initialised props options req :
  initialised (out_req (validate props options req)).
Proof.
  rewrite validate_unfold.
  apply validate_entries_initialised, ensure_state_initialised.
Qed.

Lemma validate_configs props options req :
  validationConfigs (out_req (validate props options req)) =
  Some (default (mkConfigs None None) (validationConfigs req)).
Proof. rewrite validate_unfold. by rewrite validate_entries_configs. Qed.

Lemma validate_read_configs props options req :
  read_configs (out_req (validate props options req)) = read_configs req.
Proof.
  unfold read_configs at 1. rewrite validate_configs.
  unfold read_configs. by destruct (validationConfigs req).
Qed.

(** X1. Whatever way an invocation ends, it leaves the three fields of
    the interface present, and the configuration record is the one the
    request came with (the empty record when it came with none): the
    validator never changes a switch. *)
Theorem validate_keeps_configs props options req :
  wf_props props →
  let after := out_req (validate props options req) in
  initialised after ∧
  validationConfigs after =
    Some (default (mkConfigs None None) (validationConfigs req)) ∧
  effective_throwErrors after = effective_throwErrors req ∧
  effective_overwriteRequest after = effective_overwriteRequest req.
Proof.
  intros _ after. subst after.
  unfold effective_throwErrors, effective_overwriteRequest.
  rewrite validate_read_configs.
  split; [apply validate_initialised|]. split; [apply validate_configs|done].
Qed.

(** ** Validating at once and validating in a chain *)

Lemma validate_app props1 props2 options req :
  validate (props1 ++ props2) options req =
  let first := validate props1 options req in
  match out_next first with
  | None =>
      let second := validate props2 options (out_req first) in
      {| out_req := out_req second;
         out_next := out_next second;
         out_parsed := out_parsed first ++ out_parsed second |}
  | Some _ => first
  end.
Proof.
  simpl. rewrite (validate_unfold props2), validate_read_configs.
  rewrite (ensure_state_id (out_req (validate props1 options req)))
    by apply validate_initialised.
  rewrite !validate_unfold. apply validate_entries_app.
Qed.

(** X2. One validator for a schema map [props1 ++ props2] does what two
    validators in a chain do: when the validator for [props1] ends with
    [next()], the validator for [props2] runs on the request it left and
    the combined validator ends as that one does; when it ends with
    [next(err)], the chain stops there and so does the combined
    validator. *)
Theorem validate_at_once_is_chain props1 props2 options req :
  wf_props (props1 ++ props2) →
  let first := validate props1 options req in
  let both := validate (props1 ++ props2) options req in
  (out_next first = None →
   let second := validate props2 options (out_req first) in
   out_req both = out_req second ∧
   out_next both = out_next second ∧
   out_parsed both = out_parsed first ++ out_parsed second) ∧
  (out_next first ≠ None → both = first).
Proof.
  intros _ first both. subst first both. rewrite validate_app. simpl.
  destruct (out_next (validate props1 options req)); split; done.
Qed.

(** ** Entries without a schema *)

Lemma validate_entries_defined tE oR opts entries req :
  validate_entries tE oR opts (defined_entries entries) req =
  validate_entries tE oR opts entries req.
Proof.
  revert req.
  induction entries as [|[k [schema|]] rest IH]; intros req.
  - done.
  - change (defined_entries ((k, Some schema) :: rest))
      with ((k, Some schema) :: defined_entries rest).
    simpl. destruct (validate_entry tE oR opts k schema req); [|done].
    by rewrite IH.
  - change (defined_entries ((k, None) :: rest)) with (defined_entries rest).
    simpl. apply IH.
Qed.

(** X3. Entries whose schema is [undefined] are skipped without a
    trace: the validator does the same as for the schema map without
    them.  When no entry is left (the empty schema map included), it only
    creates the missing bookkeeping fields and calls [next()]. *)
Theorem validate_skips_undefined_schemas props options req :
  wf_props props →
  validate props options req = validate (defined_entries props) options req ∧
  (configured_keys props = [] →
   validate props options req =
   {| out_req := ensure_state req; out_next := None; out_parsed := [] |}).
Proof.
  intros _. split.
  - rewrite !validate_unfold. by rewrite validate_entries_defined.
  - intros Hnone. rewrite validate_unfold.
    rewrite <- validate_entries_defined.
    unfold configured_keys in Hnone. apply fmap_nil_inv in Hnone.
    unfold defined_entries. by rewrite Hnone.
Qed.

(** ** Where the argument of [next] comes from *)

Lemma validate_getters props options req :
  req_getters (out_req (validate props options req)) = req_getters req.
Proof. rewrite validate_unfold. by rewrite validate_entries_getters. Qed.

Lemma validate_entry_return tE oR opts key schema req req' arg :
  validate_entry tE oR opts key schema req = Return req' arg →
  next_origin tE oR opts key schema req arg.
Proof.
  unfold validate_entry, req_set, next_origin.
  destruct (safeParseAsync schema (req_get key req) opts) as [d|e|x];
    [destruct oR; [simpl; case_decide|] | destruct tE | ];
    intros Heq; simplify_eq; eauto 10.
Qed.

Lemma next_origin_same_at tE oR opts key schema req req' arg :
  same_at key req req' →
  req_getters req' = req_getters req →
  next_origin tE oR opts key schema req' arg →
  next_origin tE oR opts key schema req arg.
Proof.
  intros Hsame Hget. unfold next_origin.
  by rewrite (same_at_req_get _ _ _ Hsame), Hget.
Qed.

Lemma validate_entries_return tE oR opts entries req arg :
  NoDup entries.*1 →
  out_next (validate_entries tE oR opts entries req) = Some arg →
  ∃ key schema,
    (key, Some schema) ∈ entries ∧
    last (out_parsed (validate_entries tE oR opts entries req)) = Some key ∧
    next_origin tE oR opts key schema req arg.
Proof.
  revert req.
  induction entries as [|[k [s|]] rest IH]; intros req Hnd Hnext.
  - done.
  - rewrite fmap_cons in Hnd. apply NoDup_cons in Hnd as [Hfresh Hnd].
    simpl in *.
    pose proof (validate_entry_same_at tE oR opts k s req) as Hstep.
    pose proof (validate_entry_getters tE oR opts k s req) as Hget.
    destruct (validate_entry tE oR opts k s req) as [req'|req' a] eqn:Hentry;
      simpl in *.
    + destruct (IH req' Hnd Hnext) as (key & schema & Hin & Hlast & Harg).
      exists key, schema. split; [by right|]. split.
      * destruct (out_parsed (validate_entries tE oR opts rest req'));
          [done|]. by rewrite last_cons, Hlast.
      * assert (key ≠ k) as Hne.
        { intros ->. apply Hfresh, list_elem_of_fmap.
          by exists (k, Some schema). }
        eapply next_origin_same_at; [by apply Hstep|done..].
    + simplify_eq. exists k, s. split; [by left|]. split; [done|].
      by eapply validate_entry_return.
  - rewrite fmap_cons in Hnd. apply NoDup_cons in Hnd as [Hfresh Hnd].
    simpl in *.
    destruct (IH req Hnd Hnext) as (key & schema & Hin & Hlast & Harg).
    exists key, schema. split; [by right|]. done.
Qed.

(** X6. Whenever the validator calls [next] with an argument, the call
    belongs to the last key it looked at, a key of the schema map, and
    has one of three origins: line 60 with the error of that schema's
    rejection of the request's data, under [throwErrors] only; the
    [catch] with what that schema threw on the request's data; or the
    [catch] with the [TypeError] of the write of line 56, when that
    schema accepted, [overwriteRequest] is on and the part has a getter
    only. *)
Theorem validate_next_argument_origin props options req arg :
  wf_props props →
  out_next (validate props options req) = Some arg →
  ∃ key schema,
    (key, Some schema) ∈ props ∧
    last (out_parsed (validate props options req)) = Some key ∧
    next_origin (effective_throwErrors req) (effective_overwriteRequest req)
      options key schema req arg.
Proof.
  intros [Hnd _]. rewrite validate_unfold. intros Hnext.
  by apply validate_entries_return in Hnext.
Qed.

(** ** Collecting every outcome *)

Lemma no_rejection_cons key entry rest opts req req' :
  key ∉ rest.*1 →
  (∀ other, other ≠ key → same_at other req req') →
  no_rejection ((key, entry) :: rest) opts req →
  no_rejection rest opts req'.
Proof.
  intros Hfresh Hsame Hno k schema reason Hin.
  assert (k ≠ key) as Hne.
  { intros ->. apply Hfresh, list_elem_of_fmap. by exists (key, Some schema). }
  rewrite (same_at_req_get _ _ _ (Hsame k Hne)).
  apply Hno. by right.
Qed.

Lemma validate_entries_collects oR opts entries req :
  NoDup entries.*1 →
  no_rejection entries opts req →
  (oR = true → ∀ key, key ∈ configured_keys entries → key ∉ req_getters req) →
  out_next (validate_entries false oR opts entries req) = None.
Proof.
  revert req.
  induction entries as [|[k [schema|]] rest IH]; intros req Hnd Hno Hwr.
  - done.
  - rewrite fmap_cons in Hnd. apply NoDup_cons in Hnd as [Hfresh Hnd].
    simpl in *.
    pose proof (validate_entry_same_at false oR opts k schema req) as Hstep.
    pose proof (validate_entry_getters false oR opts k schema req) as Hget.
    destruct (validate_entry false oR opts k schema req) as [req'|req' arg]
      eqn:Hentry; simpl in *.
    + apply IH; [done| by eapply no_rejection_cons |].
      intros HoR key Hin. rewrite Hget. apply Hwr; [done|].
      rewrite configured_keys_cons_Some. by right.
    + apply validate_entry_return in Hentry.
      destruct arg as [error|reason]; simpl in Hentry.
      * by destruct Hentry.
      * destruct Hentry as [Hrej|(HoR & Hin & _)].
        -- destruct (Hno k schema reason); [by left | done].
        -- destruct (Hwr HoR k); [|done].
           rewrite configured_keys_cons_Some. by left.
  - rewrite fmap_cons in Hnd. apply NoDup_cons in Hnd as [Hfresh Hnd].
    simpl in *. apply IH; [done| by eapply no_rejection_cons | done].
Qed.

Lemma configured_keys_schema (props : ValidationProps) key :
  key ∈ configured_keys props → ∃ schema, (key, Some schema) ∈ props.
Proof.
  unfold configured_keys. intros Hin.
  apply list_elem_of_fmap in Hin as ([k [schema|]] & -> & Hin);
    apply list_elem_of_filter in Hin as [Hsome Hin]; simpl in *.
  - eauto.
  - by destruct Hsome.
Qed.

Lemma settled_in_one_map oR opts key schema req after :
  (∀ reason,
     safeParseAsync schema (req_get key req) opts ≠ ParseRejected reason) →
  settled oR opts key schema req after → in_one_map key after.
Proof.
  intros Hno. unfold settled, in_one_map.
  destruct (safeParseAsync schema (req_get key req) opts) as [d|e|x].
  - intros (Hv & He & _). left. rewrite Hv. eauto.
  - intros (He & Hv & _). right. rewrite He. eauto.
  - by destruct (Hno x).
Qed.

Lemma validate_collects props options req :
  wf_props props →
  effective_throwErrors req = false →
  no_rejection props options req →
  writes_succeed props req →
  out_next (validate props options req) = None ∧
  out_parsed (validate props options req) = configured_keys props.
Proof.
  intros Hwf HtE Hno Hwr.
  assert (out_next (validate props options req) = None) as Hnone.
  { rewrite validate_unfold. unfold effective_throwErrors in HtE.
    rewrite HtE. apply validate_entries_collects; [by destruct Hwf| |done].
    intros key schema reason Hin.
    change (req_get key (ensure_state req)) with (req_get key req).
    by apply Hno. }
  split; [done|].
  by apply (validate_parsed_prefix props options req).
Qed.

(** X4. Without [throwErrors], when no schema throws and, under
    [overwriteRequest], every configured part can be assigned to, the
    validator goes through every configured part and ends with [next()];
    afterwards each configured key has an entry in exactly one of the
    two maps, the value map if its schema accepted and the error map if
    it rejected. *)
Theorem validate_collects_every_outcome props options req :
  wf_props props →
  effective_throwErrors req = false →
  no_rejection props options req →
  writes_succeed props req →
  let o := validate props options req in
  out_next o = None ∧
  out_parsed o = configured_keys props ∧
  (∀ key, key ∈ configured_keys props → in_one_map key (out_req o)).
Proof.
  intros Hwf HtE Hno Hwr o.
  destruct (validate_collects props options req Hwf HtE Hno Hwr)
    as [Hnone Hparsed].
  split; [done|]. split; [done|].
  intros key Hin.
  destruct (configured_keys_schema _ _ Hin) as [schema Hschema].
  eapply settled_in_one_map.
  - intros reason. by eapply Hno.
  - apply validate_settled; [done..|]. by rewrite Hparsed.
Qed.

(** ** The order of the entries when every outcome is collected *)







(** ** Validating again *)







(** X8. With [overwriteRequest], for a part that can be assigned to, a
    later validator of the same part parses what the earlier one stored
    in [req[key]], not the data the request came with: its outcome is
    the outcome of its schema on the earlier output.  When that schema
    rejects, the value entry of the earlier validator is gone and
    [req[key]] stays the earlier output. *)
Theorem validate_again_parses_overwritten_data
    props1 props2 options1 options2 req key schema1 schema2 data :
  wf_props props1 →
  wf_props props2 →
  effective_overwriteRequest req = true →
  key ∉ req_getters req →
  (key, Some schema1) ∈ props1 →
  (key, Some schema2) ∈ props2 →
  safeParseAsync schema1 (req_get key req) options1 = ParseSuccess data →
  let first := validate props1 options1 req in
  let second := validate props2 options2 (out_req first) in
  key ∈ out_parsed first →
  key ∈ out_parsed second →
  req_get key (out_req first) = data ∧
  match safeParseAsync schema2 data options2 with
  | ParseSuccess data2 =>
      values_of (out_req second) !! key = Some data2 ∧
      errors_of (out_req second) !! key = None ∧
      req_get key (out_req second) = data2
  | ParseFailure error =>
      errors_of (out_req second) !! key = Some error ∧
      values_of (out_req second) !! key = None ∧
      req_get key (out_req second) = data
  | ParseRejected _ =>
      values_of (out_req second) !! key = Some data ∧
      req_get key (out_req second) = data
  end.
Proof.
  intros Hwf1 Hwf2 HoR Hset Hin1 Hin2 Hparse first second Hp1 Hp2.
  subst second first. unfold effective_overwriteRequest in HoR.
  pose proof (validate_settled _ _ _ _ _ Hwf1 Hin1 Hp1) as Hs1.
  pose proof (validate_settled _ _ _ _ _ Hwf2 Hin2 Hp2) as Hs2.
  rewrite validate_read_configs in Hs2.
  unfold settled, writable in Hs1, Hs2. rewrite validate_getters in Hs2.
  rewrite (bool_decide_eq_true_2 _ Hset) in Hs1, Hs2.
  rewrite Hparse, HoR in Hs1.
  rewrite HoR in Hs2. simpl in Hs1, Hs2. destruct Hs1 as (Hv & He & Hp).
  assert (req_get key (out_req (validate props1 options1 req)) = data)
    as Hdata by (unfold req_get; by rewrite Hp).
  rewrite Hdata in Hs2. split; [done|].
  destruct (safeParseAsync schema2 data options2).
  - destruct Hs2 as (Hv' & He' & Hp').
    split; [done|]. split; [done|]. unfold req_get. by rewrite Hp'.
  - destruct Hs2 as (He' & Hv' & Hp').
    split; [done|]. split; [done|]. unfold req_get. by rewrite Hp', Hp.
  - destruct Hs2 as (Hp' & Hv' & He').
    split; [by rewrite Hv'|]. unfold req_get. by rewrite Hp', Hp.
Qed.

(** ** The write of line 56 *)

Lemma validate_entries_write_throws tE opts entries req key schema data :
  NoDup entries.*1 →
  (key, Some schema) ∈ entries →
  key ∈ out_parsed (validate_entries tE true opts entries req) →
  safeParseAsync schema (req_get key req) opts = ParseSuccess data →
  key ∈ req_getters req →
  out_next (validate_entries tE true opts entries req) =
  Some (ArgThrown (TypeError_getter_only key)).
Proof.
  revert req.
  induction entries as [|[k [s|]] rest IH];
    intros req Hnd Hin Hparsed Hparse Hget.
  - by apply elem_of_nil in Hin.
  - rewrite fmap_cons in Hnd. apply NoDup_cons in Hnd as [Hfresh Hnd].
    simpl in *. destruct (decide (k = key)) as [->|Hne].
    + assert (s = schema) as ->.
      { apply elem_of_cons in Hin as [Heq|Hin]; [congruence|].
        destruct Hfresh. apply list_elem_of_fmap. by exists (key, Some schema). }
      destruct (validate_entry_success tE true opts key schema req data
                  Hparse) as (req' & -> & _).
      by rewrite (writable_false _ _ Hget).
    + apply elem_of_cons in Hin as [Heq|Hin]; [congruence|].
      pose proof (validate_entry_same_at tE true opts k s req key) as Hstep.
      pose proof (validate_entry_getters tE true opts k s req) as Hsame.
      destruct (validate_entry tE true opts k s req) as [req'|req' arg];
        simpl in *.
      * apply elem_of_cons in Hparsed as [Heq|Hparsed]; [congruence|].
        apply IH; [done..| |by rewrite Hsame].
        rewrite (same_at_req_get key req req'); [done|].
        apply Hstep. congruence.
      * apply list_elem_of_singleton in Hparsed. congruence.
  - rewrite fmap_cons in Hnd. apply NoDup_cons in Hnd as [Hfresh Hnd].
    simpl in *. apply elem_of_cons in Hin as [Heq|Hin]; [congruence|].
    by apply IH.
Qed.

(** X11. What line 56 does to a part the validator accepted.  With
    [overwriteRequest] on and a part that can be assigned to, [req[key]]
    is the parsed output afterwards.  With [overwriteRequest] on and a
    part that has a getter only, [req[key]] still reads as before, the
    value map holds the parsed output, and the invocation ended there
    with the [TypeError] handed to [next].  With [overwriteRequest] off
    the request's own properties are all as they were. *)
Theorem validate_overwrites_writable_parts
    props options req key schema data :
  wf_props props →
  (key, Some schema) ∈ props →
  key ∈ out_parsed (validate props options req) →
  safeParseAsync schema (req_get key req) options = ParseSuccess data →
  let o := validate props options req in
  (effective_overwriteRequest req = true → key ∉ req_getters req →
   req_get key (out_req o) = data) ∧
  (effective_overwriteRequest req = true → key ∈ req_getters req →
   req_get key (out_req o) = req_get key req ∧
   values_of (out_req o) !! key = Some data ∧
   out_next o = Some (ArgThrown (TypeError_getter_only key))) ∧
  (effective_overwriteRequest req = false →
   req_parts (out_req o) = req_parts req).
Proof.
  intros Hwf Hin Hparsed Hparse o. subst o.
  pose proof (validate_settled _ options req _ _ Hwf Hin Hparsed) as Hs.
  unfold settled in Hs. rewrite Hparse in Hs. destruct Hs as (Hv & _ & Hp).
  unfold effective_overwriteRequest.
  split; [|split].
  - intros HoR Hset. rewrite HoR, (writable_true _ _ Hset) in Hp.
    unfold req_get. by rewrite Hp.
  - intros HoR Hget. rewrite HoR, (writable_false _ _ Hget) in Hp.
    split; [unfold req_get; by rewrite Hp|]. split; [done|].
    revert Hparsed. rewrite validate_unfold, HoR. intros Hparsed.
    eapply validate_entries_write_throws; [by destruct Hwf|done..].
  - intros HoR. rewrite validate_unfold.
    by rewrite validate_entries_parts_kept.
Qed.

(** ** The four wrappers *)

Lemma validate_single key schema options req :
  let o := validate [(key, Some schema)] options req in
  out_parsed o = [key] ∧
  (∀ other, other ≠ key → same_at other req (out_req o)) ∧
  match safeParseAsync schema (req_get key req) options with
  | ParseSuccess data =>
      out_next o =
        (if effective_overwriteRequest req && negb (writable key req)
         then Some (ArgThrown (TypeError_getter_only key))
         else None) ∧
      values_of (out_req o) !! key = Some data ∧
      errors_of (out_req o) !! key = None
  | ParseFailure error =>
      out_next o =
        (if effective_throwErrors req then Some (ArgZodError error)
         else None) ∧
      errors_of (out_req o) !! key = Some error ∧
      values_of (out_req o) !! key = None
  | ParseRejected reason =>
      out_next o = Some (ArgThrown reason) ∧ same_at key req (out_req o)
  end.
Proof.
  intros o. subst o. rewrite validate_unfold. cbn [validate_entries].
  unfold effective_throwErrors, effective_overwriteRequest.
  pose proof (validate_entry_same_at (read_configs req).1 (read_configs req).2
                options key schema (ensure_state req)) as Hstep.
  destruct (safeParseAsync schema (req_get key req) options) as [d|e|x]
    eqn:Hparse.
  - destruct (validate_entry_success (read_configs req).1
                (read_configs req).2 options key schema (ensure_state req) d
                Hparse) as (req' & Hentry & Hv & He & _).
    rewrite Hentry in *.
    change (writable key (ensure_state req)) with (writable key req) in *.
    by destruct ((read_configs req).2 && negb (writable key req)).
  - destruct (validate_entry_failure (read_configs req).1
                (read_configs req).2 options key schema (ensure_state req) e
                Hparse) as (req' & Hentry & He & Hv & _).
    rewrite Hentry in *. by destruct (read_configs req).1.
  - rewrite (validate_entry_rejected (read_configs req).1
               (read_configs req).2 options key schema (ensure_state req) x
               Hparse) in *.
    done.
Qed.

(** X9. Each of [validateHeaders], [validateParams], [validateQuery]
    and [validateBody] runs the one schema on its own part and touches
    nothing the request holds for another key.  An accepted part is
    stored in the value map and [next()] called, unless
    [overwriteRequest] is on and the part has a getter only: then [next]
    gets the [TypeError] of the write.  A rejected part is stored in the
    error map and [next] called with the error under [throwErrors],
    without argument otherwise.  When the schema throws, [next] gets
    what was thrown and the part's entries stay as they were. *)
Theorem part_wrapper_outcome key wrapper schema options req :
  (key, wrapper) ∈ part_wrappers →
  let o := wrapper schema options req in
  out_parsed o = [key] ∧
  (∀ other, other ≠ key → same_at other req (out_req o)) ∧
  match safeParseAsync schema (req_get key req) options with
  | ParseSuccess data =>
      out_next o =
        (if effective_overwriteRequest req && negb (writable key req)
         then Some (ArgThrown (TypeError_getter_only key))
         else None) ∧
      values_of (out_req o) !! key = Some data ∧
      errors_of (out_req o) !! key = None
  | ParseFailure error =>
      out_next o =
        (if effective_throwErrors req then Some (ArgZodError error)
         else None) ∧
      errors_of (out_req o) !! key = Some error ∧
      values_of (out_req o) !! key = None
  | ParseRejected reason =>
      out_next o = Some (ArgThrown reason) ∧ same_at key req (out_req o)
  end.
Proof.
  unfold part_wrappers. intros Hin.
  repeat (apply elem_of_cons in Hin as [Heq|Hin];
          [injection Heq as -> ->; apply validate_single|]).
  by apply elem_of_nil in Hin.
Qed.

(** ** The configuration middleware *)

(** X10. The configuration middleware replaces the record, it does not
    merge: a switch an earlier configuration middleware turned on and a
    later one leaves out is off for the validators that follow.  After
    [overwriteRequest] was so dropped a validator leaves the request's
    own properties alone, and after [throwErrors] was so dropped it hands
    no [ZodError] to [next]. *)
Theorem expressZodValidations_replaces_record
    props options req (kept : option bool) :
  wf_props props →
  let configured earlier later :=
    out_req (expressZodValidations later
               (out_req (expressZodValidations earlier req))) in
  let on := Some true in
  req_parts
    (out_req (validate props options
                (configured (mkConfigs kept on) (mkConfigs kept None)))) =
  req_parts req ∧
  (∀ error,
     out_next (validate props options
                 (configured (mkConfigs on kept) (mkConfigs None kept))) ≠
     Some (ArgZodError error)).
Proof.
  intros _ configured on. subst configured on. simpl. split.
  - rewrite validate_unfold. by rewrite validate_entries_parts_kept.
  - intros error. rewrite validate_unfold.
    by apply validate_entries_no_throw.
Qed.

(** ** The further properties at concrete requests *)

Ltac writes_succeed_by_cases :=
  let Hin := fresh "Hin" in
  intros _ ? Hin; vm_compute in Hin;
  repeat (apply elem_of_cons in Hin as [->|Hin]; [by_computation|]);
  by apply elem_of_nil in Hin.

Ltac no_rejection_by_cases :=
  let Hin := fresh "Hin" in
  intros ? ? ? Hin;
  repeat (apply elem_of_cons in Hin as [Hin|Hin];
          [injection Hin as -> ->; vm_compute; discriminate|]);
  by apply elem_of_nil in Hin.

(** X1 on a request configured with [throwErrors: true] whose body
    fails. *)
Lemma validate_keeps_configs_witness :
  let props := [("body", Some zString)] in
  let req :=
    with_configs (Some (mkConfigs (Some true) None))
      (fresh_request {[ "body" := JsNumber 1 ]}) in
  let after := out_req (validate props None req) in
  wf_props props ∧
  initialised after ∧
  validationConfigs after = Some (mkConfigs (Some true) None) ∧
  effective_throwErrors after = true.
Proof.
  intros props req after.
  assert (wf_props props) as Hwf by by_computation.
  destruct (validate_keeps_configs props None req Hwf)
    as (Hinit & Hconfigs & HtE & _).
  done.
Defined.

(** X2 for [headers] then [body]: once with headers that pass, once
    with headers that fail under [throwErrors: true]. *)
Lemma validate_at_once_is_chain_witness :
  let props1 := [("headers", Some zString)] in
  let props2 := [("body", Some zStringLength)] in
  let parts : gmap string JsValue := {[ "body" := JsString "John" ]} in
  let req := fresh_request (<[ "headers" := JsString "Bearer t" ]> parts) in
  let req' := with_configs (Some (mkConfigs (Some true) None))
                (fresh_request parts) in
  wf_props (props1 ++ props2) ∧
  out_next (validate props1 None req) = None ∧
  out_req (validate (props1 ++ props2) None req) =
    out_req (validate props2 None (out_req (validate props1 None req))) ∧
  out_next (validate props1 None req') ≠ None ∧
  validate (props1 ++ props2) None req' = validate props1 None req'.
Proof.
  intros props1 props2 parts req req'.
  assert (wf_props (props1 ++ props2)) as Hwf by by_computation.
  assert (out_next (validate props1 None req) = None) as Hnone by done.
  assert (out_next (validate props1 None req') ≠ None) as Hsome by done.
  split; [done|]. split; [done|]. split.
  - destruct (validate_at_once_is_chain props1 props2 None req Hwf)
      as [Hchain _].
    by destruct (Hchain Hnone) as (Hreq & _).
  - split; [done|].
    destruct (validate_at_once_is_chain props1 props2 None req' Hwf)
      as [_ Hstop].
    by apply Hstop.
Defined.

(** X3 on a schema map whose two schemas are [undefined]. *)
Lemma validate_skips_undefined_schemas_witness :
  let props : ValidationProps := [("body", None); ("query", None)] in
  let req := fresh_request {[ "body" := JsNumber 1 ]} in
  wf_props props ∧
  configured_keys props = [] ∧
  validate props None req =
    {| out_req := ensure_state req; out_next := None; out_parsed := [] |}.
Proof.
  intros props req.
  assert (wf_props props) as Hwf by by_computation.
  split; [done|]. split; [done|].
  by apply (validate_skips_undefined_schemas props None req Hwf).
Defined.

(** X4 on headers that pass and a body that fails, with
    [overwriteRequest: true] on a request whose [query] has a getter
    only and is not configured. *)
Lemma validate_collects_every_outcome_witness :
  let props := [("headers", Some zString); ("body", Some zString)] in
  let req :=
    with_configs (Some (mkConfigs None (Some true)))
      (with_getters {[ "query" ]}
         (fresh_request
            {[ "headers" := JsString "Bearer t"; "body" := JsNumber 1 ]})) in
  let o := validate props None req in
  wf_props props ∧
  effective_throwErrors req = false ∧
  no_rejection props None req ∧
  writes_succeed props req ∧
  out_next o = None ∧
  in_one_map "headers" (out_req o) ∧
  in_one_map "body" (out_req o).
Proof.
  intros props req o.
  assert (wf_props props) as Hwf by by_computation.
  assert (no_rejection props None req) as Hno by no_rejection_by_cases.
  assert (writes_succeed props req) as Hwr by writes_succeed_by_cases.
  destruct (validate_collects_every_outcome props None req Hwf eq_refl Hno
              Hwr) as (Hnone & _ & Hone).
  split; [done|]. split; [done|]. split; [done|]. split; [done|].
  split; [done|].
  split; apply Hone; by_computation.
Defined.


(** X6 when the schema of [body] throws. *)
Lemma validate_next_argument_origin_witness :
  let boom := JsString "lookup failed" in
  let props := [("headers", Some zString); ("body", Some (zThrowing boom))] in
  let req := fresh_request ∅ in
  wf_props props ∧
  out_next (validate props None req) = Some (ArgThrown boom) ∧
  ∃ key schema,
    (key, Some schema) ∈ props ∧
    last (out_parsed (validate props None req)) = Some key ∧
    next_origin false false None key schema req (ArgThrown boom).
Proof.
  intros boom props req.
  assert (wf_props props) as Hwf by by_computation.
  split; [done|]. split; [done|].
  by apply (validate_next_argument_origin props None req (ArgThrown boom)
              Hwf).
Defined.


(** X8 on the same body under [overwriteRequest: true]: the second run
    gets the number the first one stored and rejects it. *)
Lemma validate_again_parses_overwritten_data_witness :
  let props := [("body", Some zStringLength)] in
  let req :=
    with_configs (Some (mkConfigs None (Some true)))
      (with_getters {[ "query" ]}
         (fresh_request {[ "body" := JsString "John" ]})) in
  let first := validate props None req in
  let second := validate props None (out_req first) in
  wf_props props ∧
  effective_overwriteRequest req = true ∧
  ("body" ∉ req_getters req) ∧
  req_get "body" (out_req first) = JsNumber 4 ∧
  errors_of (out_req second) !! "body" =
    Some (invalid_type "expected string") ∧
  values_of (out_req second) !! "body" = None ∧
  req_get "body" (out_req second) = JsNumber 4.
Proof.
  intros props req first second.
  assert (wf_props props) as Hwf by by_computation.
  assert ("body" ∉ req_getters req) as Hset by by_computation.
  split; [done|]. split; [done|]. split; [done|].
  by apply (validate_again_parses_overwritten_data props props None None req
              "body" zStringLength zStringLength (JsNumber 4) Hwf Hwf eq_refl
              Hset);
    [left | left | | by_computation | by_computation].
Defined.

(** X9 for [validateQuery] under [overwriteRequest: true] on a request
    whose [query] has a getter only. *)
Lemma part_wrapper_outcome_witness :
  let req :=
    with_configs (Some (mkConfigs None (Some true)))
      (with_getters {[ "query" ]}
         (fresh_request {[ "body" := JsNumber 1; "query" := JsNull ]})) in
  let o := validateQuery zAny None req in
  ("query", validateQuery) ∈ part_wrappers ∧
  out_parsed o = ["query"] ∧
  same_at "body" req (out_req o) ∧
  out_next o = Some (ArgThrown (TypeError_getter_only "query")) ∧
  values_of (out_req o) !! "query" = Some JsNull.
Proof.
  intros req o.
  assert (("query", validateQuery) ∈ part_wrappers) as Hin
    by (unfold part_wrappers; do 2 right; left).
  destruct (part_wrapper_outcome "query" validateQuery zAny None req Hin)
    as (Hparsed & Hother & Hnext & Hv & _).
  split; [done|]. split; [done|]. split; [by apply Hother|]. done.
Defined.

(** X11 for [body], which can be assigned to, and [query], which has a
    getter only, both accepted under [overwriteRequest: true]. *)
Lemma validate_overwrites_writable_parts_witness :
  let parts : gmap string JsValue :=
    {[ "body" := JsString "John"; "query" := JsString "page=2" ]} in
  let req :=
    with_configs (Some (mkConfigs None (Some true)))
      (with_getters {[ "query" ]} (fresh_request parts)) in
  let props := [("body", Some zStringLength); ("query", Some zStringLength)] in
  let o := validate props None req in
  wf_props props ∧
  effective_overwriteRequest req = true ∧
  ("body" ∉ req_getters req) ∧
  "query" ∈ req_getters req ∧
  req_get "body" (out_req o) = JsNumber 4 ∧
  req_get "query" (out_req o) = JsString "page=2" ∧
  out_next o = Some (ArgThrown (TypeError_getter_only "query")).
Proof.
  intros parts req props o.
  assert (wf_props props) as Hwf by by_computation.
  assert ("body" ∉ req_getters req) as Hset by by_computation.
  assert ("query" ∈ req_getters req) as Hget by by_computation.
  split; [done|]. split; [done|]. split; [done|]. split; [done|].
  destruct (validate_overwrites_writable_parts props None req "body"
              zStringLength (JsNumber 4) Hwf) as (Hbody & _);
    [by left | by_computation | done |].
  destruct (validate_overwrites_writable_parts props None req "query"
              zStringLength (JsNumber 6) Hwf) as (_ & Hquery & _);
    [by right; left | by_computation | done |].
  split; [by apply Hbody|].
  by destruct (Hquery eq_refl Hget) as (Hq & _ & Hnext).
Defined.

(** X10 on a body that would be overwritten and would be thrown. *)
Lemma expressZodValidations_replaces_record_witness :
  let props := [("body", Some zStringLength)] in
  let req := fresh_request {[ "body" := JsString "John" ]} in
  let req1 :=
    out_req (expressZodValidations (mkConfigs None (Some true)) req) in
  let req2 := out_req (expressZodValidations (mkConfigs None None) req1) in
  wf_props props ∧
  req_parts (out_req (validate props None req2)) = req_parts req.
Proof.
  intros props req req1 req2.
  assert (wf_props props) as Hwf by by_computation.
  split; [done|].
  by destruct (expressZodValidations_replaces_record props None req None Hwf).
Defined.
